(** * Service Health Dashboard (src/App.jsx): a shallow embedding

    The component polls two endpoints every five seconds, classifies every
    service event as healthy or stale with [isHealthy], groups the events by
    service name with [groupByName] and raises toasts from [fetchData].

    What the embedding makes explicit:
    - the wall clock: every call of [dayjs()] is a read of a clock, the
      [k]-th read returning [clock k];
    - dayjs's parser, taken as a parameter [parse] ([None] is Invalid Date);
    - React's state cells and the closures a render creates over them: the
      body of [fetchData] reads the [showConfetti] of the render that created
      it, not the cell;
    - the plain JavaScript object [groupByName] uses as a map, with the
      properties it inherits from [Object.prototype] and the key order of
      [Object.keys]. *)

From Stdlib Require Import ZArith NArith List String Ascii Bool Lia.
From Stdlib Require Import QArith Permutation Sorted.
Import ListNotations.
Local Open Scope string_scope.
Local Open Scope list_scope.
Local Open Scope Z_scope.

(** ** dayjs: the part of the library [isHealthy] calls *)

Module Dayjs.

(** A dayjs object is its time value, an integral number of milliseconds
    since the epoch; [None] is Invalid Date, whose time value is NaN. *)
Definition t : Type := option Z.

Definition MILLISECONDS_A_SECOND : Z := 1000.

(** [Utils.a], dayjs's [absFloor]: [n < 0 ? Math.ceil(n) || 0 : Math.floor(n)],
    at the quotient [n = d / k] of an integer [d] by a positive [k].
    [Math.ceil (d / k)] is [- floor (- d / k)]; [|| 0] only turns JavaScript's
    negative zero into zero. *)
Definition absFloor (d k : Z) : Z :=
  if d <? 0 then - ((- d) / k) else d / k.

(** [this.diff(that, "second")]: [diff = this - that], then
    [Utils.a(diff / MILLISECONDS_A_SECOND)]. A NaN operand gives NaN. *)
Definition diff_second (this that : t) : option Z :=
  match this, that with
  | Some a, Some b => Some (absFloor (a - b) MILLISECONDS_A_SECOND)
  | _, _ => None
  end.

End Dayjs.

(** JavaScript's [x <= y] on a number that may be NaN: false on NaN. *)
Definition js_le (x : option Z) (y : Z) : bool :=
  match x with
  | Some v => v <=? y
  | None => false
  end.

(** ** The data of the component *)

Record ServiceEvent : Type := mkEvent {
  name : string;
  type : string;
  date : string
}.

Record Cpu : Type := mkCpu { total : Q }.
Record Mem : Type := mkMem { percent : Q }.
Record SystemInfo : Type := mkSystemInfo { cpu : Cpu; mem : Mem }.

(** The three [useState] cells of [App]. *)
Record AppState : Type := mkState {
  data : list ServiceEvent;
  systemInfo : SystemInfo;
  showConfetti : bool
}.

Definition initialState : AppState :=
  {| data := [];
     systemInfo := {| cpu := {| total := 0%Q |}; mem := {| percent := 0%Q |} |};
     showConfetti := false |}.

(** The two notifications of sonner the component raises. *)
Inductive Toast : Type :=
| toast_error (message : string)
| toast_success (message : string).

Definition alertToast : Toast :=
  toast_error "⚠️ Some services are unhealthy!".

Definition celebrateToast : Toast :=
  toast_success "🎉 All services are healthy!".

Definition isAlert (s : Toast) : bool :=
  match s with toast_error _ => true | toast_success _ => false end.

Definition isCelebrate (s : Toast) : bool :=
  match s with toast_success _ => true | toast_error _ => false end.

(** Everything a poll can read or write: the state cells, the toasts raised
    so far and the calls of [console.error] made so far, each with its
    message and the error it was given (both oldest first), and the number
    of clock reads made so far. *)
Record World : Type := mkWorld {
  cells : AppState;
  toasts : list Toast;
  console : list (string * string);
  reads : nat
}.

Definition initialWorld : World :=
  {| cells := initialState; toasts := []; console := []; reads := 0%nat |}.

(** The outcome of [await axios.get(url)]: the promise resolves with a
    response whose [data] is the decoded body, here of the shape the
    component expects, or rejects with an error. *)
Inductive Response (A : Type) : Type :=
| Resolved (body : A)
| Rejected (err : string).
Arguments Resolved {A} body.
Arguments Rejected {A} err.

(** ** A state monad over [World] *)

Definition M (A : Type) : Type := World -> A * World.

Definition ret {A : Type} (a : A) : M A := fun w => (a, w).

Definition bind {A B : Type} (m : M A) (k : A -> M B) : M B :=
  fun w => let (a, w') := m w in k a w'.

Declare Scope js_scope.
Delimit Scope js_scope with js.
Notation "x <- m ;; k" := (bind m (fun x => k))
  (at level 61, m at next level, right associativity) : js_scope.
Notation "m ;; k" := (bind m (fun _ => k))
  (at level 61, right associativity) : js_scope.

Definition exec {A : Type} (m : M A) (w : World) : World := snd (m w).
Definition result {A : Type} (m : M A) (w : World) : A := fst (m w).

Definition setData (d : list ServiceEvent) : M unit :=
  fun w =>
    (tt, {| cells := {| data := d;
                        systemInfo := systemInfo (cells w);
                        showConfetti := showConfetti (cells w) |};
            toasts := toasts w; console := console w; reads := reads w |}).

Definition setSystemInfo (i : SystemInfo) : M unit :=
  fun w =>
    (tt, {| cells := {| data := data (cells w);
                        systemInfo := i;
                        showConfetti := showConfetti (cells w) |};
            toasts := toasts w; console := console w; reads := reads w |}).

Definition setShowConfetti (b : bool) : M unit :=
  fun w =>
    (tt, {| cells := {| data := data (cells w);
                        systemInfo := systemInfo (cells w);
                        showConfetti := b |};
            toasts := toasts w; console := console w; reads := reads w |}).

Definition toast (s : Toast) : M unit :=
  fun w =>
    (tt, {| cells := cells w; toasts := toasts w ++ [s];
            console := console w; reads := reads w |}).

Definition console_error (message err : string) : M unit :=
  fun w =>
    (tt, {| cells := cells w; toasts := toasts w;
            console := console w ++ [(message, err)]; reads := reads w |}).

(** [Array.prototype.some]: the callback runs on the elements in order and
    the loop stops at the first one it accepts. *)
Fixpoint some {A : Type} (callback : A -> M bool) (arr : list A) : M bool :=
  match arr with
  | [] => ret false
  | item :: rest =>
      (found <- callback item ;;
       if found then ret true else some callback rest)%js
  end.

(** ** The plain object [groupByName] uses as a map *)

Module JsObject.

(** The own properties of an object created by [{}], in creation order.
    Every value [groupByName] stores is an array of events. *)
Definition t : Type := list (string * list ServiceEvent).

(** The property names an object created by [{}] inherits from
    [Object.prototype]. Each is bound to a function, except [__proto__],
    an accessor whose getter returns [Object.prototype] itself. *)
Definition Object_prototype : list string :=
  [ "constructor"; "__defineGetter__"; "__defineSetter__"; "hasOwnProperty";
    "__lookupGetter__"; "__lookupSetter__"; "isPrototypeOf";
    "propertyIsEnumerable"; "toString"; "valueOf"; "__proto__";
    "toLocaleString" ].

Definition inherited (key : string) : bool :=
  existsb (String.eqb key) Object_prototype.

(** What [obj[key]] evaluates to. *)
Inductive Value : Type :=
| OwnArray (items : list ServiceEvent)
| Inherited
| Undefined.

Fixpoint own (obj : t) (key : string) : option (list ServiceEvent) :=
  match obj with
  | [] => None
  | (k, v) :: rest => if String.eqb k key then Some v else own rest key
  end.

(** [obj[key]]: the own property, else the one of the prototype, else
    [undefined]. *)
Definition get (obj : t) (key : string) : Value :=
  match own obj key with
  | Some v => OwnArray v
  | None => if inherited key then Inherited else Undefined
  end.

(** [ToBoolean]: arrays (even empty), functions and objects are truthy;
    [undefined] is not. *)
Definition truthy (v : Value) : bool :=
  match v with
  | OwnArray _ | Inherited => true
  | Undefined => false
  end.

(** [obj[key] = v]: an own property keeps its place, a new one is created
    last. ([groupByName] assigns only where [obj[key]] is [undefined], so
    never to [__proto__], whose setter would not create a property.) *)
Fixpoint set (obj : t) (key : string) (v : list ServiceEvent) : t :=
  match obj with
  | [] => [(key, v)]
  | (k, v') :: rest =>
      if String.eqb k key then (k, v) :: rest else (k, v') :: set rest key v
  end.

Definition isDigit (c : ascii) : bool :=
  let n := N_of_ascii c in ((48 <=? n) && (n <=? 57))%N.

Fixpoint digitsValue (s : string) (acc : N) : option N :=
  match s with
  | EmptyString => Some acc
  | String c rest =>
      if isDigit c
      then digitsValue rest (10 * acc + (N_of_ascii c - 48))%N
      else None
  end.

(** A property name is an array index when it is the canonical decimal
    numeral (no sign, no leading zero) of an integer below [2^32 - 1]. *)
Definition arrayIndex (key : string) : option N :=
  match key with
  | EmptyString => None
  | String c rest =>
      if (Ascii.eqb c "0" && negb (String.eqb rest ""))%bool then None
      else match digitsValue key 0%N with
           | Some n => if (n <? 4294967295)%N then Some n else None
           | None => None
           end
  end.

Definition isArrayIndex (key : string) : bool :=
  match arrayIndex key with Some _ => true | None => false end.

Fixpoint insertByIndex (e : N * string) (sorted : list (N * string))
  : list (N * string) :=
  match sorted with
  | [] => [e]
  | e' :: rest =>
      if (fst e <=? fst e')%N then e :: sorted
      else e' :: insertByIndex e rest
  end.

Definition sortByIndex (l : list (N * string)) : list (N * string) :=
  fold_right insertByIndex [] l.

Fixpoint indexKeys (ks : list string) : list (N * string) :=
  match ks with
  | [] => []
  | k :: rest =>
      match arrayIndex k with
      | Some n => (n, k) :: indexKeys rest
      | None => indexKeys rest
      end
  end.

(** [Object.keys(obj)] (OrdinaryOwnPropertyKeys): the array-index names in
    ascending numeric order, then the other names in creation order. *)
Definition keys (obj : t) : list string :=
  let ks := List.map fst obj in
  List.map snd (sortByIndex (indexKeys ks))
  ++ List.filter (fun k => negb (isArrayIndex k)) ks.

End JsObject.

(** The order in which the distinct elements of a list first appear. *)
Fixpoint firstAppearance (seen l : list string) : list string :=
  match l with
  | [] => []
  | x :: rest =>
      if existsb (String.eqb x) seen then firstAppearance seen rest
      else x :: firstAppearance (x :: seen) rest
  end.

(** ** The component *)

(** [groupByName], a closure over the [data] of its render. [forEach] visits
    the events in order; [groups[item.name].push(item)] throws a TypeError,
    which ends the call, when [groups[item.name]] is not an array. *)
Definition groupByName_visit (groups : JsObject.t) (item : ServiceEvent)
  : option JsObject.t :=
  let groups1 :=
    if negb (JsObject.truthy (JsObject.get groups (name item)))
    then JsObject.set groups (name item) []
    else groups in
  match JsObject.get groups1 (name item) with
  | JsObject.OwnArray items =>
      Some (JsObject.set groups1 (name item) (items ++ [item]))
  | JsObject.Inherited | JsObject.Undefined => None
  end.

Fixpoint forEach_visit (groups : JsObject.t) (d : list ServiceEvent)
  : option JsObject.t :=
  match d with
  | [] => Some groups
  | item :: rest =>
      match groupByName_visit groups item with
      | Some groups' => forEach_visit groups' rest
      | None => None
      end
  end.

Definition groupByName (data : list ServiceEvent) : option JsObject.t :=
  forEach_visit [] data.

Section Component.

(** dayjs's parser: the time value of [dayjs(dateStr)], [None] when the
    string does not parse. *)
Variable parse : string -> option Z.

(** The wall clock: [clock k] is the time value of the [k]-th [dayjs()]. *)
Variable clock : nat -> Z.

Definition dayjs_now : M Z :=
  fun w =>
    (clock (reads w),
     {| cells := cells w; toasts := toasts w; console := console w;
        reads := S (reads w) |}).

(** [isHealthy], at the instant [now] its call of [dayjs()] observes. *)
Definition isHealthy (now : Z) (dateStr : string) : bool :=
  let timestamp := parse dateStr in
  js_le (Dayjs.diff_second (Some now) timestamp) 25.

Definition isHealthy_call (dateStr : string) : M bool :=
  (now <- dayjs_now ;; ret (isHealthy now dateStr))%js.

(** The callback [(item) => !isHealthy(item.date)]. *)
Definition unhealthy (item : ServiceEvent) : M bool :=
  (healthy <- isHealthy_call (date item) ;; ret (negb healthy))%js.

(** The body of [fetchData] after [await axios.get(...)], as created by a
    render whose [showConfetti] is the first argument. *)
Definition fetchData (showConfetti : bool)
           (response : Response (list ServiceEvent)) : M unit :=
  match response with
  | Resolved body =>
      (setData body ;;
       hasUnhealthy <- some unhealthy body ;;
       if hasUnhealthy then
         toast alertToast ;;
         setShowConfetti false
       else
         if negb showConfetti then
           setShowConfetti true ;;
           toast celebrateToast
         else ret tt)%js
  | Rejected err => console_error "Failed to fetch service data:" err
  end.

Definition fetchSystemInfo (response : Response SystemInfo) : M unit :=
  match response with
  | Resolved body => setSystemInfo body
  | Rejected err => console_error "Failed to fetch system info:" err
  end.

(** What one render of [App] creates from the state cells it reads. *)
Record Render : Type := mkRender {
  render_fetchData : Response (list ServiceEvent) -> M unit;
  render_fetchSystemInfo : Response SystemInfo -> M unit;
  groupedData : option JsObject.t
}.

Definition App (s : AppState) : Render :=
  {| render_fetchData := fetchData (showConfetti s);
     render_fetchSystemInfo := fetchSystemInfo;
     groupedData := groupByName (data s) |}.

(** [useEffect(..., [])] runs once, after the first render: the call it
    makes and the interval callback it installs both use the [fetchData]
    and [fetchSystemInfo] of that render. *)
Definition mounted : Render := App initialState.

(** The requests complete one at a time; each completion runs the rest of
    its function to the end. *)
Inductive Completion : Type :=
| servicesEvents (response : Response (list ServiceEvent))
| systemInfoAll (response : Response SystemInfo).

Definition step (c : Completion) : M unit :=
  match c with
  | servicesEvents response => render_fetchData mounted response
  | systemInfoAll response => render_fetchSystemInfo mounted response
  end.

Fixpoint run (cs : list Completion) (w : World) : World :=
  match cs with
  | [] => w
  | c :: rest => run rest (exec (step c) w)
  end.

(** The toasts a computation adds to those already raised. *)
Definition emitted {A : Type} (m : M A) (w : World) : list Toast :=
  skipn (List.length (toasts w)) (toasts (exec m w)).

(** The classifications [StatusCard] derives from the stored events at an
    instant [now]. *)
Definition classifications (now : Z) (s : AppState) : list bool :=
  List.map (fun item => isHealthy now (date item)) (data s).

(** The events of a poll as [some] evaluates them: the [i]-th one at the
    [i]-th clock read from [k]. *)
Fixpoint allHealthy (k : nat) (body : list ServiceEvent) : bool :=
  match body with
  | [] => true
  | item :: rest =>
      isHealthy (clock k) (date item) && allHealthy (S k) rest
  end.

End Component.

Arguments isHealthy parse now dateStr : simpl never.

(** ** Vocabulary of the statements about sequences of completions *)

(** An events request that resolved. *)
Definition isResolvedPoll (c : Completion) : bool :=
  match c with
  | servicesEvents (Resolved _) => true
  | _ => false
  end.

(** The call of [console.error] a rejected request makes. *)
Definition consoleLines (c : Completion) : list (string * string) :=
  match c with
  | servicesEvents (Rejected err) => [("Failed to fetch service data:", err)]
  | systemInfoAll (Rejected err) => [("Failed to fetch system info:", err)]
  | _ => []
  end.

Section PollVocabulary.

Variable parse : string -> option Z.
Variable clock : nat -> Z.

(** How many events [some] evaluates from the [k]-th clock read: those up to
    and including the first one that evaluates stale. *)
Fixpoint evaluated (k : nat) (body : list ServiceEvent) : nat :=
  match body with
  | [] => 0
  | item :: rest =>
      if isHealthy parse (clock k) (date item)
      then S (evaluated (S k) rest)
      else 1
  end.

(** The toast a resolved poll run by the interval raises. *)
Definition pollToast (k : nat) (body : list ServiceEvent) : Toast :=
  if allHealthy parse clock k body then celebrateToast else alertToast.

End PollVocabulary.

(** ** Vocabulary of the statements about [groupByName] *)

(** The events of a name, in the order of the input. *)
Definition groupOf (key : string) (d : list ServiceEvent) : list ServiceEvent :=
  filter (fun item => String.eqb (name item) key) d.

(** Some event bears the name. *)
Definition named (key : string) (d : list ServiceEvent) : bool :=
  existsb (fun item => String.eqb (name item) key) d.

(** No event is named like a property of [Object.prototype]. *)
Definition plainNames (d : list ServiceEvent) : bool :=
  forallb (fun item => negb (JsObject.inherited (name item))) d.

(** No event is named by an array index. *)
Definition noIndexNames (d : list ServiceEvent) : bool :=
  forallb (fun item => negb (JsObject.isArrayIndex (name item))) d.

(** ** Concrete inputs used by the examples *)

(** A parser that knows four strings; every other string is Invalid Date. *)
Definition sampleParse (s : string) : option Z :=
  if String.eqb s "2023-12-31T23:59:00.000Z" then Some 1704067140000
  else if String.eqb s "2024-01-01T00:00:00.000Z" then Some 1704067200000
  else if String.eqb s "2024-01-01T00:00:20.000Z" then Some 1704067220000
  else if String.eqb s "2024-01-01T00:01:00.000Z" then Some 1704067260000
  else None.

(** A clock that stands at 2024-01-01T00:00:25.000Z and advances by one
    millisecond at every read. *)
Definition sampleClock (k : nat) : Z := 1704067225000 + Z.of_nat k.

Definition heartbeat : ServiceEvent :=
  {| name := "svc1"; type := "A"; date := "2024-01-01T00:00:20.000Z" |}.

Definition oldHeartbeat : ServiceEvent :=
  {| name := "svc2"; type := "B"; date := "2023-12-31T23:59:00.000Z" |}.

Definition constructorEvent : ServiceEvent :=
  {| name := "constructor"; type := "api"; date := "2024-01-01T00:00:20.000Z" |}.

Definition numberedEvents : list ServiceEvent :=
  [ {| name := "2"; type := "A"; date := "2024-01-01T00:00:20.000Z" |};
    {| name := "1"; type := "B"; date := "2024-01-01T00:00:20.000Z" |} ].

Definition sampleInfo : SystemInfo :=
  {| cpu := {| total := (25 # 2)%Q |}; mem := {| percent := (40 # 1)%Q |} |}.

(** The state after a first poll that found [heartbeat] healthy. *)
Definition celebratingWorld : World :=
  {| cells := {| data := [heartbeat]; systemInfo := systemInfo initialState;
                 showConfetti := true |};
     toasts := [celebrateToast]; console := []; reads := 1 |}.

(** ** Elapsed whole seconds *)

Lemma absFloor_second_quot (d : Z) :
  Dayjs.absFloor d Dayjs.MILLISECONDS_A_SECOND = Z.quot d 1000.
Proof.
  unfold Dayjs.absFloor, Dayjs.MILLISECONDS_A_SECOND.
  destruct (Z.ltb_spec d 0) as [Hneg | Hpos].
  - rewrite <- (Z.opp_involutive d) at 2.
    rewrite Z.quot_opp_l by lia.
    rewrite Z.quot_div_nonneg by lia. reflexivity.
  - rewrite Z.quot_div_nonneg by lia. reflexivity.
Qed.

Lemma absFloor_second_le_25 (d : Z) :
  Dayjs.absFloor d Dayjs.MILLISECONDS_A_SECOND <= 25 <-> d < 26000.
Proof.
  unfold Dayjs.absFloor, Dayjs.MILLISECONDS_A_SECOND.
  destruct (Z.ltb_spec d 0) as [Hneg | Hpos].
  - assert (0 <= (- d) / 1000) by (apply Z.div_pos; lia). lia.
  - split; intros H.
    + destruct (Z.lt_ge_cases d 26000) as [Hlt | Hge]; [exact Hlt | exfalso].
      assert (26 <= d / 1000)
        by (change 26 with (26000 / 1000); apply Z.div_le_mono; lia).
      lia.
    + assert (d / 1000 < 26) by (apply Z.div_lt_upper_bound; lia). lia.
Qed.

Section Classification.

Variable parse : string -> option Z.

Lemma isHealthy_parsed (now t : Z) (dateStr : string) :
  parse dateStr = Some t ->
  isHealthy parse now dateStr = (now - t <? 26000).
Proof.
  intros Hparse. unfold isHealthy. rewrite Hparse. simpl.
  destruct (Z.ltb_spec (now - t) 26000) as [Hlt | Hge].
  - apply Z.leb_le, absFloor_second_le_25. exact Hlt.
  - apply Z.leb_gt.
    destruct (Z.le_gt_cases
                (Dayjs.absFloor (now - t) Dayjs.MILLISECONDS_A_SECOND) 25)
      as [Hle | Hgt]; [ | lia].
    apply absFloor_second_le_25 in Hle. lia.
Qed.

Lemma isHealthy_unparsed (now : Z) (dateStr : string) :
  parse dateStr = None -> isHealthy parse now dateStr = false.
Proof.
  intros Hparse. unfold isHealthy. rewrite Hparse. reflexivity.
Qed.

End Classification.

(** C3, as amended: for a timestamp that parses to [t], [isHealthy] answers
    true exactly when the elapsed time, cut to whole seconds, is at most 25,
    that is when [now - t] is below 26 seconds. An elapsed time of exactly
    25 s is healthy, 25.001 s is healthy too, and 26 s is stale. *)
Theorem isHealthy_whole_seconds :
  forall (parse : string -> option Z) (now t : Z) (dateStr : string),
    parse dateStr = Some t ->
    (isHealthy parse now dateStr = true <-> Z.quot (now - t) 1000 <= 25)
    /\ (isHealthy parse now dateStr = true <-> now - t < 26000)
    /\ (now - t = 25000 -> isHealthy parse now dateStr = true)
    /\ (now - t = 25001 -> isHealthy parse now dateStr = true)
    /\ (now - t = 26000 -> isHealthy parse now dateStr = false).
Proof.
  intros parse now t dateStr Hparse.
  rewrite (isHealthy_parsed parse now t dateStr Hparse).
  rewrite <- absFloor_second_quot, absFloor_second_le_25.
  repeat split; intros H.
  - apply Z.ltb_lt. exact H.
  - apply Z.ltb_lt. exact H.
  - apply Z.ltb_lt. exact H.
  - apply Z.ltb_lt. exact H.
  - apply Z.ltb_lt. lia.
  - apply Z.ltb_lt. lia.
  - apply Z.ltb_ge. lia.
Qed.

Lemma isHealthy_whole_seconds_witness :
  sampleParse "2024-01-01T00:00:00.000Z" = Some 1704067200000
  /\ (isHealthy sampleParse 1704067225001 "2024-01-01T00:00:00.000Z" = true
      <-> 1704067225001 - 1704067200000 < 26000).
Proof.
  split.
  - reflexivity.
  - apply (isHealthy_whole_seconds sampleParse 1704067225001 1704067200000
             "2024-01-01T00:00:00.000Z").
    reflexivity.
Defined.

(** C3, as stated, fails: 25.001 seconds after the timestamp [isHealthy]
    still answers true, although the elapsed time exceeds 25 seconds. *)
Lemma isHealthy_25001_ms_is_healthy :
  sampleParse "2024-01-01T00:00:00.000Z" = Some 1704067200000
  /\ isHealthy sampleParse 1704067225001 "2024-01-01T00:00:00.000Z" = true
  /\ ~ (1704067225001 - 1704067200000 <= 25000).
Proof.
  split; [reflexivity | split; [vm_compute; reflexivity | lia]].
Qed.

(** C8: a timestamp strictly in the future is classified healthy, and a
    string that does not parse is classified stale. *)
Theorem isHealthy_future_and_unparsable :
  forall (parse : string -> option Z) (now : Z) (dateStr : string),
    (forall t, parse dateStr = Some t -> now < t ->
               isHealthy parse now dateStr = true)
    /\ (parse dateStr = None -> isHealthy parse now dateStr = false).
Proof.
  intros parse now dateStr. split.
  - intros t Hparse Hfuture.
    rewrite (isHealthy_parsed parse now t dateStr Hparse).
    apply Z.ltb_lt. lia.
  - apply isHealthy_unparsed.
Qed.

Lemma isHealthy_future_and_unparsable_witness :
  isHealthy sampleParse 1704067225000 "2024-01-01T00:01:00.000Z" = true
  /\ isHealthy sampleParse 1704067225000 "yesterday-ish" = false.
Proof.
  split.
  - apply (proj1 (isHealthy_future_and_unparsable sampleParse 1704067225000
                    "2024-01-01T00:01:00.000Z") 1704067260000).
    + reflexivity.
    + lia.
  - apply (proj2 (isHealthy_future_and_unparsable sampleParse 1704067225000
                    "yesterday-ish")).
    reflexivity.
Defined.

(** ** One poll *)

Lemma exec_bind {A B : Type} (m : M A) (k : A -> M B) (w : World) :
  exec (bind m k) w = exec (k (result m w)) (exec m w).
Proof.
  unfold exec, result, bind. destruct (m w) as [a w1]. reflexivity.
Qed.

Lemma result_bind {A B : Type} (m : M A) (k : A -> M B) (w : World) :
  result (bind m k) w = result (k (result m w)) (exec m w).
Proof.
  unfold exec, result, bind. destruct (m w) as [a w1]. reflexivity.
Qed.

Section Poll.

Variable parse : string -> option Z.
Variable clock : nat -> Z.

(** [some] answers whether an event evaluated stale, and only reads the
    clock. *)
Lemma some_unhealthy (body : list ServiceEvent) (w : World) :
  result (some (unhealthy parse clock) body) w = negb (allHealthy parse clock (reads w) body)
  /\ cells (exec (some (unhealthy parse clock) body) w) = cells w
  /\ toasts (exec (some (unhealthy parse clock) body) w) = toasts w
  /\ console (exec (some (unhealthy parse clock) body) w) = console w.
Proof.
  revert w. induction body as [ | item rest IH]; intros w.
  - repeat split.
  - cbn [some allHealthy]. rewrite result_bind, exec_bind.
    replace (result (unhealthy parse clock item) w)
      with (negb (isHealthy parse (clock (reads w)) (date item)))
      by reflexivity.
    destruct (isHealthy parse (clock (reads w)) (date item)); cbn [negb andb].
    + apply (IH (exec (unhealthy parse clock item) w)).
    + repeat split.
Qed.

(** What a resolved poll does, by the answer of [some]. *)
Lemma fetchData_resolved (captured : bool) (body : list ServiceEvent)
      (w : World) :
  exec (fetchData parse clock captured (Resolved body)) w =
  let w1 := exec (some (unhealthy parse clock) body) (exec (setData body) w) in
  if negb (allHealthy parse clock (reads w) body)
  then exec (setShowConfetti false) (exec (toast alertToast) w1)
  else if negb captured
       then exec (toast celebrateToast) (exec (setShowConfetti true) w1)
       else w1.
Proof.
  unfold fetchData. rewrite !exec_bind. cbn zeta.
  destruct (some_unhealthy body (exec (setData body) w)) as (Hres & _).
  rewrite Hres. cbn [exec setData snd reads].
  destruct (allHealthy parse clock (reads w) body); cbn [negb].
  - destruct captured; cbn [negb].
    + reflexivity.
    + rewrite !exec_bind. reflexivity.
  - rewrite !exec_bind. reflexivity.
Qed.

(** A poll with a stale event: the events are stored, one error toast is
    raised and the latch is cleared, whatever the closure captured. *)
Lemma fetchData_stale (captured : bool) (body : list ServiceEvent) (w : World) :
  allHealthy parse clock (reads w) body = false ->
  let w' := exec (fetchData parse clock captured (Resolved body)) w in
  cells w' = {| data := body; systemInfo := systemInfo (cells w);
                showConfetti := false |}
  /\ toasts w' = toasts w ++ [alertToast]
  /\ console w' = console w.
Proof.
  intros Hstale. cbn zeta. rewrite fetchData_resolved, Hstale. cbn zeta.
  destruct (some_unhealthy body (exec (setData body) w))
    as (_ & Hcells & Htoasts & Hconsole).
  cbn [negb exec setShowConfetti toast snd cells toasts console].
  unfold exec in *. rewrite Hcells, Htoasts, Hconsole. repeat split.
Qed.

(** A poll whose events all evaluate healthy, run by a closure that
    captured a cleared latch: the latch is set and one success toast is
    raised. *)
Lemma fetchData_healthy_uncaptured (body : list ServiceEvent) (w : World) :
  allHealthy parse clock (reads w) body = true ->
  let w' := exec (fetchData parse clock false (Resolved body)) w in
  cells w' = {| data := body; systemInfo := systemInfo (cells w);
                showConfetti := true |}
  /\ toasts w' = toasts w ++ [celebrateToast]
  /\ console w' = console w.
Proof.
  intros Hhealthy. cbn zeta. rewrite fetchData_resolved, Hhealthy. cbn zeta.
  destruct (some_unhealthy body (exec (setData body) w))
    as (_ & Hcells & Htoasts & Hconsole).
  cbn [negb exec setShowConfetti toast snd cells toasts console].
  unfold exec in *. rewrite Hcells, Htoasts, Hconsole. repeat split.
Qed.

(** The same poll run by a closure that captured a set latch: only the
    events are stored. *)
Lemma fetchData_healthy_captured (body : list ServiceEvent) (w : World) :
  allHealthy parse clock (reads w) body = true ->
  let w' := exec (fetchData parse clock true (Resolved body)) w in
  cells w' = {| data := body; systemInfo := systemInfo (cells w);
                showConfetti := showConfetti (cells w) |}
  /\ toasts w' = toasts w
  /\ console w' = console w.
Proof.
  intros Hhealthy. cbn zeta. rewrite fetchData_resolved, Hhealthy. cbn zeta.
  destruct (some_unhealthy body (exec (setData body) w))
    as (_ & Hcells & Htoasts & Hconsole).
  cbn [negb]. unfold exec in *. rewrite Hcells, Htoasts, Hconsole.
  repeat split.
Qed.

Lemma emitted_appended {A : Type} (m : M A) (w : World) (new : list Toast) :
  toasts (exec m w) = toasts w ++ new -> emitted m w = new.
Proof.
  intros H. unfold emitted. rewrite H.
  rewrite skipn_app, skipn_all, Nat.sub_diag. reflexivity.
Qed.

End Poll.

(** [allHealthy] in words: every event evaluates healthy at the instant of
    its own clock read. *)
Lemma allHealthy_true_iff (parse : string -> option Z) (clock : nat -> Z)
      (body : list ServiceEvent) (k : nat) :
  allHealthy parse clock k body = true <->
  (forall i item, nth_error body i = Some item ->
                  isHealthy parse (clock (k + i)%nat) (date item) = true).
Proof.
  revert k. induction body as [ | e rest IH]; intros k; cbn [allHealthy].
  - split; [ | reflexivity]. intros _ [ | i] item H; discriminate H.
  - rewrite andb_true_iff, IH. split.
    + intros [Hhead Htail] [ | i] item H; cbn [nth_error] in H.
      * injection H as <-. rewrite Nat.add_0_r. exact Hhead.
      * rewrite Nat.add_succ_r. apply (Htail i item H).
    + intros H. split.
      * rewrite <- (Nat.add_0_r k). apply (H 0%nat). reflexivity.
      * intros i item Hi.
        replace (S k + i)%nat with (k + S i)%nat by lia.
        apply (H (S i)). exact Hi.
Qed.

(** Its negation: some event evaluates stale at the instant of its read. *)
Lemma allHealthy_false_iff (parse : string -> option Z) (clock : nat -> Z)
      (body : list ServiceEvent) (k : nat) :
  allHealthy parse clock k body = false <->
  (exists i item, nth_error body i = Some item
                  /\ isHealthy parse (clock (k + i)%nat) (date item) = false).
Proof.
  revert k. induction body as [ | e rest IH]; intros k; cbn [allHealthy].
  - split; [discriminate | ]. intros ([ | i] & item & H & _); discriminate H.
  - rewrite andb_false_iff, IH. split.
    + intros [Hhead | (i & item & Hi & Hstale)].
      * exists 0%nat, e. rewrite Nat.add_0_r. split; [reflexivity | exact Hhead].
      * exists (S i), item. rewrite Nat.add_succ_r. split; assumption.
    + intros ([ | i] & item & Hi & Hstale); cbn [nth_error] in Hi.
      * injection Hi as <-. rewrite Nat.add_0_r in Hstale. left. exact Hstale.
      * right. exists i, item. rewrite Nat.add_succ_r in Hstale.
        split; assumption.
Qed.

(** C1 fails on the code: the interval callback runs the [fetchData] of the
    first render, so after a first healthy poll has set the latch, a second
    healthy poll raises the success toast again. *)
Theorem second_healthy_poll_celebrates_again :
  let poll := servicesEvents (Resolved [heartbeat]) in
  run sampleParse sampleClock [poll] initialWorld = celebratingWorld
  /\ showConfetti (cells celebratingWorld) = true
  /\ allHealthy sampleParse sampleClock (reads celebratingWorld) [heartbeat]
     = true
  /\ emitted (step sampleParse sampleClock poll) celebratingWorld
     = [celebrateToast]
  /\ toasts (run sampleParse sampleClock [poll; poll] initialWorld)
     = [celebrateToast; celebrateToast].
Proof.
  vm_compute. repeat split.
Qed.

(** C2, as amended: a successful poll one of whose events evaluates stale
    raises the error toast, and only it, and clears the latch, from every
    state and for every closure. *)
Theorem stale_poll_alerts :
  forall (parse : string -> option Z) (clock : nat -> Z) (captured : bool)
         (body : list ServiceEvent) (w : World),
    allHealthy parse clock (reads w) body = false ->
    emitted (fetchData parse clock captured (Resolved body)) w = [alertToast]
    /\ showConfetti
         (cells (exec (fetchData parse clock captured (Resolved body)) w))
       = false
    /\ emitted (step parse clock (servicesEvents (Resolved body))) w
       = [alertToast]
    /\ showConfetti
         (cells (exec (step parse clock (servicesEvents (Resolved body))) w))
       = false.
Proof.
  intros parse clock captured body w Hstale.
  destruct (fetchData_stale parse clock captured body w Hstale)
    as (Hcells & Htoasts & _).
  destruct (fetchData_stale parse clock false body w Hstale)
    as (Hcells0 & Htoasts0 & _).
  cbn zeta in *. repeat split.
  - apply emitted_appended. exact Htoasts.
  - rewrite Hcells. reflexivity.
  - apply emitted_appended. exact Htoasts0.
  - cbn [step mounted App render_fetchData initialState showConfetti].
    rewrite Hcells0. reflexivity.
Qed.

Lemma stale_poll_alerts_witness :
  allHealthy sampleParse sampleClock (reads celebratingWorld)
    [heartbeat; oldHeartbeat] = false
  /\ emitted (fetchData sampleParse sampleClock true
                (Resolved [heartbeat; oldHeartbeat])) celebratingWorld
     = [alertToast].
Proof.
  split.
  - reflexivity.
  - apply (stale_poll_alerts sampleParse sampleClock true
             [heartbeat; oldHeartbeat] celebratingWorld).
    reflexivity.
Defined.

(** C2, as stated, fails: a successful poll that returns no event raises no
    error toast; it raises the success toast and sets the latch. *)
Lemma empty_poll_raises_no_alert :
  let m := step sampleParse sampleClock (servicesEvents (Resolved [])) in
  emitted m initialWorld = [celebrateToast]
  /\ existsb isAlert (emitted m initialWorld) = false
  /\ showConfetti (cells (exec m initialWorld)) = true.
Proof.
  vm_compute. repeat split.
Qed.


(** C6: the interval callback runs the [fetchData] of the first render,
    which captured [showConfetti = false]; so from every state, also one
    whose latch is already set, a successful poll whose events all evaluate
    healthy (an empty one included) raises the success toast and sets the
    latch. *)
Theorem interval_poll_always_celebrates :
  forall (parse : string -> option Z) (clock : nat -> Z)
         (body : list ServiceEvent) (w : World),
    allHealthy parse clock (reads w) body = true ->
    step parse clock (servicesEvents (Resolved body))
    = fetchData parse clock (showConfetti initialState) (Resolved body)
    /\ showConfetti initialState = false
    /\ emitted (step parse clock (servicesEvents (Resolved body))) w
       = [celebrateToast]
    /\ showConfetti
         (cells (exec (step parse clock (servicesEvents (Resolved body))) w))
       = true.
Proof.
  intros parse clock body w Hhealthy.
  destruct (fetchData_healthy_uncaptured parse clock body w Hhealthy)
    as (Hcells & Htoasts & _).
  cbn zeta in *. repeat split.
  - apply emitted_appended. exact Htoasts.
  - cbn [step mounted App render_fetchData initialState showConfetti].
    rewrite Hcells. reflexivity.
Qed.

Lemma interval_poll_always_celebrates_witness :
  allHealthy sampleParse sampleClock (reads celebratingWorld) [heartbeat] = true
  /\ showConfetti (cells celebratingWorld) = true
  /\ emitted (step sampleParse sampleClock
                (servicesEvents (Resolved [heartbeat]))) celebratingWorld
     = [celebrateToast].
Proof.
  split; [reflexivity | split; [reflexivity | ]].
  apply (interval_poll_always_celebrates sampleParse sampleClock [heartbeat]
           celebratingWorld).
  reflexivity.
Defined.

(** C7: a successful poll that returns no event, met with the latch clear,
    raises the success toast and sets the latch, whether it is run by the
    interval callback or by the [fetchData] of the current render; and an
    empty poll raises no error toast from any state, for any closure. *)
Theorem empty_poll_celebrates :
  forall (parse : string -> option Z) (clock : nat -> Z) (w : World),
    showConfetti (cells w) = false ->
    (emitted (step parse clock (servicesEvents (Resolved []))) w
     = [celebrateToast]
     /\ showConfetti
          (cells (exec (step parse clock (servicesEvents (Resolved []))) w))
        = true)
    /\ (emitted (render_fetchData (App parse clock (cells w)) (Resolved [])) w
        = [celebrateToast]
        /\ showConfetti
             (cells (exec (render_fetchData (App parse clock (cells w))
                             (Resolved [])) w))
           = true)
    /\ (forall (captured : bool) (w0 : World),
           existsb isAlert
             (emitted (fetchData parse clock captured (Resolved [])) w0)
           = false).
Proof.
  intros parse clock w Hclear.
  assert (Hcelebrate :
            emitted (fetchData parse clock false (Resolved [])) w
            = [celebrateToast]
            /\ showConfetti
                 (cells (exec (fetchData parse clock false (Resolved [])) w))
               = true).
  { destruct (fetchData_healthy_uncaptured parse clock [] w eq_refl)
      as (Hcells & Htoasts & _).
    cbn zeta in *. split.
    - apply emitted_appended. exact Htoasts.
    - rewrite Hcells. reflexivity. }
  split; [exact Hcelebrate | split].
  - cbn [App render_fetchData]. rewrite Hclear. exact Hcelebrate.
  - intros [ | ] w0.
    + destruct (fetchData_healthy_captured parse clock [] w0 eq_refl)
        as (_ & Htoasts & _).
      cbn zeta in *.
      rewrite (emitted_appended _ w0 []); [reflexivity | ].
      rewrite app_nil_r. exact Htoasts.
    + destruct (fetchData_healthy_uncaptured parse clock [] w0 eq_refl)
        as (_ & Htoasts & _).
      cbn zeta in *.
      rewrite (emitted_appended _ w0 [celebrateToast]); [reflexivity | ].
      exact Htoasts.
Qed.

Lemma empty_poll_celebrates_witness :
  showConfetti (cells initialWorld) = false
  /\ emitted (step sampleParse sampleClock (servicesEvents (Resolved [])))
       initialWorld
     = [celebrateToast].
Proof.
  split.
  - reflexivity.
  - apply (empty_poll_celebrates sampleParse sampleClock initialWorld).
    reflexivity.
Defined.

(** C10: a resolved metrics request replaces the stored metrics, a rejected
    one keeps them; either way the events, the classifications derived from
    them, the latch and the toasts are what they were, and no event is
    evaluated. *)
Theorem fetchSystemInfo_frame :
  forall (parse : string -> option Z) (clock : nat -> Z)
         (response : Response SystemInfo) (w : World),
    let w' := exec (step parse clock (systemInfoAll response)) w in
    systemInfo (cells w')
    = match response with
      | Resolved body => body
      | Rejected _ => systemInfo (cells w)
      end
    /\ data (cells w') = data (cells w)
    /\ (forall now, classifications parse now (cells w')
                    = classifications parse now (cells w))
    /\ showConfetti (cells w') = showConfetti (cells w)
    /\ toasts w' = toasts w
    /\ reads w' = reads w
    /\ w' = exec (fetchSystemInfo response) w.
Proof.
  intros parse clock [body | err] w; cbn zeta; repeat split.
Qed.

(** ** The object used as a map *)

Section ObjectFacts.

Import JsObject.

Lemma own_set_same (obj : t) (key : string) (v : list ServiceEvent) :
  own (set obj key v) key = Some v.
Proof.
  induction obj as [ | [k v'] rest IH]; cbn [set own].
  - rewrite String.eqb_refl. reflexivity.
  - destruct (String.eqb k key) eqn:E; cbn [own]; rewrite E.
    + reflexivity.
    + exact IH.
Qed.

Lemma own_set_other (obj : t) (key other : string) (v : list ServiceEvent) :
  other <> key -> own (set obj key v) other = own obj other.
Proof.
  intros Hne. induction obj as [ | [k v'] rest IH]; cbn [set own].
  - destruct (String.eqb_spec key other) as [-> | _]; [contradiction | reflexivity].
  - destruct (String.eqb_spec k key) as [-> | Hk]; cbn [own].
    + destruct (String.eqb_spec key other) as [<- | _];
        [contradiction | reflexivity].
    + destruct (String.eqb k other); [reflexivity | exact IH].
Qed.

Lemma set_own_None (obj : t) (key : string) (v : list ServiceEvent) :
  own obj key = None -> set obj key v = obj ++ [(key, v)].
Proof.
  induction obj as [ | [k v'] rest IH]; cbn [set own]; intros Hown.
  - reflexivity.
  - destruct (String.eqb k key); [discriminate Hown | ].
    cbn [app]. rewrite (IH Hown). reflexivity.
Qed.

Lemma set_last (obj : t) (key : string) (v v' : list ServiceEvent) :
  own obj key = None -> set (obj ++ [(key, v)]) key v' = obj ++ [(key, v')].
Proof.
  induction obj as [ | [k v0] rest IH]; cbn [set own app]; intros Hown.
  - rewrite String.eqb_refl. reflexivity.
  - destruct (String.eqb k key); [discriminate Hown | ].
    rewrite (IH Hown). reflexivity.
Qed.

Lemma set_own_Some_names (obj : t) (key : string) (v : list ServiceEvent) :
  own obj key <> None -> map fst (set obj key v) = map fst obj.
Proof.
  induction obj as [ | [k v'] rest IH]; cbn [set own]; intros Hown.
  - contradiction.
  - destruct (String.eqb k key); cbn [map fst].
    + reflexivity.
    + rewrite (IH Hown). reflexivity.
Qed.

Lemma set_own_Some_contents (obj : t) (key : string)
      (old : list ServiceEvent) (item : ServiceEvent) :
  own obj key = Some old ->
  Permutation (List.concat (map snd (set obj key (old ++ [item]))))
              (item :: List.concat (map snd obj)).
Proof.
  induction obj as [ | [k v'] rest IH]; cbn [set own]; intros Hown.
  - discriminate Hown.
  - destruct (String.eqb k key); cbn [map snd List.concat].
    + injection Hown as ->. rewrite <- app_assoc. cbn [app].
      symmetry. apply Permutation_middle.
    + rewrite (IH Hown). symmetry. apply Permutation_middle.
Qed.

Lemma own_None_names (obj : t) (key : string) :
  own obj key = None <-> existsb (String.eqb key) (map fst obj) = false.
Proof.
  induction obj as [ | [k v] rest IH]; cbn [own map fst existsb].
  - split; reflexivity.
  - rewrite (String.eqb_sym key k).
    destruct (String.eqb k key); cbn [orb].
    + split; discriminate.
    + exact IH.
Qed.

(** What one visit of [forEach] does, by cases. *)
Lemma groupByName_visit_known (groups : t) (item : ServiceEvent)
      (old : list ServiceEvent) :
  own groups (name item) = Some old ->
  groupByName_visit groups item
  = Some (set groups (name item) (old ++ [item])).
Proof.
  intros Hown. unfold groupByName_visit, get. rewrite Hown.
  cbn [truthy negb]. rewrite Hown. reflexivity.
Qed.

Lemma groupByName_visit_new (groups : t) (item : ServiceEvent) :
  own groups (name item) = None ->
  inherited (name item) = false ->
  groupByName_visit groups item = Some (groups ++ [(name item, [item])]).
Proof.
  intros Hown Hinh. unfold groupByName_visit, get. rewrite Hown, Hinh.
  cbn [truthy negb]. rewrite own_set_same.
  rewrite (set_own_None groups _ _ Hown), (set_last groups _ _ _ Hown).
  reflexivity.
Qed.

Lemma groupByName_visit_throws (groups : t) (item : ServiceEvent) :
  own groups (name item) = None ->
  inherited (name item) = true ->
  groupByName_visit groups item = None.
Proof.
  intros Hown Hinh. unfold groupByName_visit, get. rewrite Hown, Hinh.
  cbn [truthy negb]. rewrite Hown. reflexivity.
Qed.

End ObjectFacts.

(** ** Grouping *)

Section GroupingFacts.

Import JsObject.

Lemma firstAppearance_seen (seen seen' l : list string) :
  (forall x, existsb (String.eqb x) seen = existsb (String.eqb x) seen') ->
  firstAppearance seen l = firstAppearance seen' l.
Proof.
  revert seen seen'. induction l as [ | x rest IH]; intros seen seen' Hsame.
  - reflexivity.
  - cbn [firstAppearance]. rewrite (Hsame x).
    destruct (existsb (String.eqb x) seen').
    + apply IH. exact Hsame.
    + f_equal. apply IH. intros y. cbn [existsb]. rewrite (Hsame y).
      reflexivity.
Qed.

Lemma firstAppearance_last (seen l : list string) (x : string) :
  firstAppearance (seen ++ [x]) l = firstAppearance (x :: seen) l.
Proof.
  apply firstAppearance_seen. intros y.
  rewrite existsb_app. cbn [existsb].
  destruct (String.eqb y x), (existsb (String.eqb y) seen); reflexivity.
Qed.

(** The loop of [groupByName] from any object [groups]: unless it meets a
    name that is not yet a group and is inherited, it returns; the groups
    are created in order of first appearance, each holds the events of
    its name in input order, and no event is lost or repeated. *)
Lemma forEach_visit_returns (d : list ServiceEvent) :
  forall groups : t,
    (forall item, In item d -> own groups (name item) = None ->
                  inherited (name item) = false) ->
    exists groups',
      forEach_visit groups d = Some groups'
      /\ map fst groups'
         = map fst groups ++ firstAppearance (map fst groups) (map name d)
      /\ (forall key,
             own groups' key
             = match own groups key with
               | Some old => Some (old ++ groupOf key d)
               | None => if named key d then Some (groupOf key d) else None
               end)
      /\ Permutation (List.concat (map snd groups'))
                     (List.concat (map snd groups) ++ d).
Proof.
  induction d as [ | item rest IH]; intros groups Hplain.
  - exists groups. cbn [forEach_visit map firstAppearance].
    rewrite !app_nil_r. split; [reflexivity | split; [reflexivity | split]].
    + intros key. cbn [groupOf named filter existsb].
      destruct (own groups key); [rewrite app_nil_r | ]; reflexivity.
    + reflexivity.
  - set (old := match own groups (name item) with
                | Some a => a
                | None => []
                end).
    set (groups1 := set groups (name item) (old ++ [item])).
    assert (Hvisit : groupByName_visit groups item = Some groups1).
    { subst groups1 old. destruct (own groups (name item)) as [a | ] eqn:Hown.
      - apply groupByName_visit_known. exact Hown.
      - rewrite (groupByName_visit_new groups item Hown).
        + rewrite (set_own_None groups _ _ Hown). reflexivity.
        + apply Hplain; [left; reflexivity | exact Hown]. }
    assert (Hsame : own groups1 (name item) = Some (old ++ [item]))
      by apply own_set_same.
    assert (Hother : forall key, key <> name item ->
                                 own groups1 key = own groups key)
      by (intros key Hne; apply own_set_other; exact Hne).
    destruct (IH groups1) as (groups' & Hrun & Hnames & Hown' & Hperm).
    { intros item' Hin Hnone.
      destruct (String.eqb_spec (name item') (name item)) as [Heq | Hne].
      - rewrite Heq, Hsame in Hnone. discriminate Hnone.
      - rewrite (Hother _ Hne) in Hnone.
        apply Hplain; [right; exact Hin | exact Hnone]. }
    exists groups'. cbn [forEach_visit]. rewrite Hvisit.
    split; [exact Hrun | split; [ | split]].
    + rewrite Hnames. cbn [map firstAppearance]. subst groups1 old.
      destruct (own groups (name item)) as [a | ] eqn:Hown.
      * rewrite set_own_Some_names by (rewrite Hown; discriminate).
        destruct (existsb (String.eqb (name item)) (map fst groups)) eqn:Hseen.
        -- reflexivity.
        -- apply own_None_names in Hseen. rewrite Hown in Hseen.
           discriminate Hseen.
      * rewrite (proj1 (own_None_names groups (name item)) Hown).
        rewrite (set_own_None groups _ _ Hown), map_app. cbn [map fst].
        rewrite firstAppearance_last, <- app_assoc. reflexivity.
    + intros key. rewrite (Hown' key). unfold groupOf, named.
      cbn [filter existsb].
      destruct (String.eqb_spec (name item) key) as [<- | Hne].
      * rewrite Hsame. subst old. cbn [orb].
        destruct (own groups (name item)) as [a | ].
        -- rewrite <- app_assoc. reflexivity.
        -- reflexivity.
      * rewrite (Hother key) by (intros ->; apply Hne; reflexivity).
        cbn [orb]. reflexivity.
    + rewrite Hperm. subst groups1 old.
      destruct (own groups (name item)) as [a | ] eqn:Hown.
      * rewrite (set_own_Some_contents groups _ _ _ Hown).
        cbn [app]. apply Permutation_middle.
      * rewrite (set_own_None groups _ _ Hown), map_app, concat_app.
        cbn [map snd List.concat app]. rewrite <- app_assoc.
        reflexivity.
Qed.

(** The loop throws as soon as a name that is not a group is inherited. *)
Lemma forEach_visit_throws (d : list ServiceEvent) :
  forall groups : t,
    (forall key, own groups key <> None -> inherited key = false) ->
    (exists item, In item d /\ inherited (name item) = true) ->
    forEach_visit groups d = None.
Proof.
  induction d as [ | item rest IH]; intros groups Hkeys (bad & Hin & Hbad).
  - destruct Hin.
  - cbn [forEach_visit].
    destruct (groupByName_visit groups item) as [groups1 | ] eqn:Hvisit;
      [ | reflexivity].
    destruct (own groups (name item)) as [a | ] eqn:Hown.
    + rewrite (groupByName_visit_known groups item a Hown) in Hvisit.
      injection Hvisit as <-.
      destruct Hin as [<- | Hin].
      * rewrite (Hkeys (name item)) in Hbad by (rewrite Hown; discriminate).
        discriminate Hbad.
      * apply IH; [ | exists bad; split; assumption].
        intros key Hsome.
        destruct (String.eqb_spec key (name item)) as [-> | Hne].
        -- apply Hkeys. rewrite Hown. discriminate.
        -- rewrite own_set_other in Hsome by exact Hne.
           apply Hkeys. exact Hsome.
    + destruct (inherited (name item)) eqn:Hinh.
      * rewrite (groupByName_visit_throws groups item Hown Hinh) in Hvisit.
        discriminate Hvisit.
      * rewrite (groupByName_visit_new groups item Hown Hinh) in Hvisit.
        injection Hvisit as <-.
        destruct Hin as [<- | Hin]; [congruence | ].
        apply IH; [ | exists bad; split; assumption].
        intros key Hsome.
        rewrite <- (set_own_None groups _ _ Hown) in Hsome.
        destruct (String.eqb_spec key (name item)) as [-> | Hne].
        -- exact Hinh.
        -- rewrite own_set_other in Hsome by exact Hne.
           apply Hkeys. exact Hsome.
Qed.

Lemma plainNames_spec (d : list ServiceEvent) :
  plainNames d = true <->
  (forall item, In item d -> inherited (name item) = false).
Proof.
  unfold plainNames. rewrite forallb_forall. split; intros H item Hin.
  - apply negb_true_iff. apply H. exact Hin.
  - apply negb_true_iff. apply H. exact Hin.
Qed.

(** [groupByName] returns exactly on the inputs without inherited names. *)
Lemma groupByName_returns_iff (d : list ServiceEvent) :
  plainNames d = true <-> exists groups, groupByName d = Some groups.
Proof.
  split.
  - intros Hplain.
    destruct (forEach_visit_returns d []) as (groups & Hrun & _).
    + intros item Hin _. apply (proj1 (plainNames_spec d) Hplain item Hin).
    + exists groups. exact Hrun.
  - intros (groups & Hrun). destruct (plainNames d) eqn:Hplain;
      [reflexivity | exfalso].
    unfold groupByName in Hrun. rewrite forEach_visit_throws in Hrun.
    + discriminate Hrun.
    + intros key Hsome. cbn in Hsome. contradiction.
    + unfold plainNames in Hplain.
      assert (Hex : existsb (fun item => inherited (name item)) d = true).
      { clear Hrun.
        induction d as [ | item rest IH]; cbn [forallb existsb] in *.
        - discriminate Hplain.
        - destruct (inherited (name item)); cbn [negb andb orb] in *;
            [reflexivity | apply IH; exact Hplain]. }
      apply existsb_exists in Hex. exact Hex.
Qed.

End GroupingFacts.

Section OrderFacts.

Import JsObject.

Lemma firstAppearance_In (l seen : list string) (x : string) :
  In x (firstAppearance seen l) ->
  In x l /\ existsb (String.eqb x) seen = false.
Proof.
  revert seen. induction l as [ | y rest IH]; intros seen Hin.
  - destruct Hin.
  - cbn [firstAppearance] in Hin.
    destruct (existsb (String.eqb y) seen) eqn:Hseen.
    + destruct (IH seen Hin) as [Hrest Hnew]. split; [right | ]; assumption.
    + destruct Hin as [<- | Hin].
      * split; [left; reflexivity | exact Hseen].
      * destruct (IH (y :: seen) Hin) as [Hrest Hnew].
        cbn [existsb] in Hnew. apply orb_false_iff in Hnew.
        split; [right; exact Hrest | apply Hnew].
Qed.

Lemma firstAppearance_NoDup (l seen : list string) :
  NoDup (firstAppearance seen l).
Proof.
  revert seen. induction l as [ | y rest IH]; intros seen.
  - constructor.
  - cbn [firstAppearance]. destruct (existsb (String.eqb y) seen).
    + apply IH.
    + constructor; [ | apply IH].
      intros Hin. apply firstAppearance_In in Hin as [_ Hnew].
      cbn [existsb] in Hnew. rewrite String.eqb_refl in Hnew.
      discriminate Hnew.
Qed.

Lemma firstAppearance_complete (l seen : list string) (x : string) :
  In x l -> existsb (String.eqb x) seen = false ->
  In x (firstAppearance seen l).
Proof.
  revert seen. induction l as [ | y rest IH]; intros seen Hin Hnew.
  - destruct Hin.
  - cbn [firstAppearance].
    destruct (String.eqb_spec x y) as [<- | Hne].
    + rewrite Hnew. left. reflexivity.
    + destruct Hin as [-> | Hin]; [contradiction Hne; reflexivity | ].
      destruct (existsb (String.eqb y) seen).
      * apply IH; assumption.
      * right. apply IH; [exact Hin | ].
        cbn [existsb]. apply orb_false_iff. split; [ | exact Hnew].
        apply String.eqb_neq. exact Hne.
Qed.

Lemma indexKeys_none (ks : list string) :
  forallb (fun k => negb (isArrayIndex k)) ks = true ->
  indexKeys ks = []
  /\ filter (fun k => negb (isArrayIndex k)) ks = ks.
Proof.
  induction ks as [ | k rest IH]; cbn [forallb indexKeys filter]; intros H.
  - split; reflexivity.
  - apply andb_true_iff in H as [Hk Hrest].
    destruct (IH Hrest) as [Hidx Hfilter]. rewrite Hk, Hfilter.
    unfold isArrayIndex in Hk. destruct (arrayIndex k); [discriminate Hk | ].
    split; [exact Hidx | reflexivity].
Qed.

Lemma insertByIndex_sorted (e : N * string) (l : list (N * string)) :
  Sorted (fun a b => (fst a <= fst b)%N) l ->
  Sorted (fun a b => (fst a <= fst b)%N) (insertByIndex e l).
Proof.
  induction l as [ | e' rest IH]; cbn [insertByIndex]; intros Hsorted.
  - repeat constructor.
  - destruct (N.leb_spec (fst e) (fst e')) as [Hle | Hgt].
    + constructor; [exact Hsorted | constructor; exact Hle].
    + inversion Hsorted as [ | ? ? Hrest Hhd]; subst.
      constructor; [apply IH; exact Hrest | ].
      destruct rest as [ | e'' rest']; cbn [insertByIndex].
      * constructor. lia.
      * destruct (N.leb_spec (fst e) (fst e'')); constructor; [lia | ].
        inversion Hhd; subst. assumption.
Qed.

(** The array-index names come out in ascending numeric order. *)
Lemma sortByIndex_sorted (l : list (N * string)) :
  Sorted (fun a b => (fst a <= fst b)%N) (sortByIndex l).
Proof.
  induction l as [ | e rest IH]; cbn [sortByIndex fold_right].
  - constructor.
  - apply insertByIndex_sorted. exact IH.
Qed.

Lemma insertByIndex_perm (e : N * string) (l : list (N * string)) :
  Permutation (insertByIndex e l) (e :: l).
Proof.
  induction l as [ | e' rest IH]; cbn [insertByIndex].
  - reflexivity.
  - destruct (fst e <=? fst e')%N; [reflexivity | ].
    rewrite IH. apply perm_swap.
Qed.

Lemma sortByIndex_perm (l : list (N * string)) :
  Permutation (sortByIndex l) l.
Proof.
  induction l as [ | e rest IH]; cbn [sortByIndex fold_right].
  - reflexivity.
  - rewrite insertByIndex_perm. constructor. exact IH.
Qed.

End OrderFacts.

(** On an input without inherited names [groupByName] returns a partition:
    a name is a group exactly when an event bears it, its group holds the
    events of that name in input order, the groups together hold the input
    events, each as often as the input does, and so as many as the input. *)
Lemma groupByName_partition (d : list ServiceEvent) :
  plainNames d = true ->
  exists groups,
    groupByName d = Some groups
    /\ (forall key, JsObject.own groups key
                    = if named key d then Some (groupOf key d) else None)
    /\ NoDup (map fst groups)
    /\ Permutation (List.concat (map snd groups)) d
    /\ list_sum (map (fun g => List.length (snd g)) groups) = List.length d.
Proof.
  intros Hplain.
  destruct (forEach_visit_returns d []) as (groups & Hrun & Hnames & Hown & Hperm).
  { intros item Hin _. apply (proj1 (plainNames_spec d) Hplain item Hin). }
  exists groups. cbn [map app List.concat JsObject.own] in *.
  split; [exact Hrun | split; [exact Hown | split; [ | split]]].
  - rewrite Hnames. apply firstAppearance_NoDup.
  - exact Hperm.
  - rewrite <- (Permutation_length Hperm), length_concat, map_map.
    reflexivity.
Qed.

(** So an event is in the group of a name exactly when it is an input event
    of that name: it is in the group of its own name and in no other. *)
Lemma groupByName_member (d : list ServiceEvent) (groups : JsObject.t) :
  plainNames d = true ->
  groupByName d = Some groups ->
  forall (key : string) (item : ServiceEvent),
    (exists group, JsObject.own groups key = Some group /\ In item group)
    <-> (In item d /\ name item = key).
Proof.
  intros Hplain Hrun key item.
  destruct (groupByName_partition d Hplain) as (groups' & Hrun' & Hown & _).
  rewrite Hrun in Hrun'. injection Hrun' as <-.
  rewrite (Hown key). split.
  - intros (group & Hgroup & Hin).
    destruct (named key d); [ | discriminate Hgroup].
    injection Hgroup as <-. unfold groupOf in Hin.
    apply filter_In in Hin as [Hd Hname].
    split; [exact Hd | apply String.eqb_eq; exact Hname].
  - intros [Hd Hname].
    assert (Hnamed : named key d = true).
    { unfold named. apply existsb_exists. exists item.
      split; [exact Hd | apply String.eqb_eq; exact Hname]. }
    rewrite Hnamed. exists (groupOf key d). split; [reflexivity | ].
    unfold groupOf. apply filter_In.
    split; [exact Hd | apply String.eqb_eq; exact Hname].
Qed.

(** C5 fails on the code: an event named like a property every object
    inherits makes [groupByName] throw, so no grouping is produced. *)
Theorem groupByName_throws_on_inherited_name :
  groupByName [heartbeat; constructorEvent] = None
  /\ JsObject.get [("svc1", [heartbeat])] (name constructorEvent)
     = JsObject.Inherited
  /\ groupByName [heartbeat] = Some [("svc1", [heartbeat])].
Proof.
  vm_compute. repeat split.
Qed.

(** C9, as amended: on an input without inherited names [groupByName]
    returns, and [Object.keys] lists the group names that are array indices
    first, in ascending numeric order, then the other names in order of
    first appearance; when no name is an array index the keys are the names
    in order of first appearance. *)
Theorem groupByName_key_order :
  forall d : list ServiceEvent,
    plainNames d = true ->
    exists groups,
      groupByName d = Some groups
      /\ map fst groups = firstAppearance [] (map name d)
      /\ JsObject.keys groups
         = map snd (JsObject.sortByIndex
                      (JsObject.indexKeys (firstAppearance [] (map name d))))
           ++ filter (fun k => negb (JsObject.isArrayIndex k))
                     (firstAppearance [] (map name d))
      /\ (noIndexNames d = true ->
          JsObject.keys groups = firstAppearance [] (map name d)).
Proof.
  intros d Hplain.
  destruct (forEach_visit_returns d []) as (groups & Hrun & Hnames & _).
  { intros item Hin _. apply (proj1 (plainNames_spec d) Hplain item Hin). }
  cbn [map app] in Hnames.
  exists groups. split; [exact Hrun | split; [exact Hnames | ]].
  unfold JsObject.keys. rewrite Hnames. split; [reflexivity | ].
  intros Hnoindex.
  destruct (indexKeys_none (firstAppearance [] (map name d))) as [Hidx Hfilter].
  - apply forallb_forall. intros k Hk.
    apply firstAppearance_In in Hk as [Hk _].
    apply in_map_iff in Hk as (item & <- & Hitem).
    unfold noIndexNames in Hnoindex.
    apply (proj1 (forallb_forall _ d) Hnoindex item Hitem).
  - rewrite Hidx, Hfilter. reflexivity.
Qed.

Lemma groupByName_key_order_witness :
  plainNames [heartbeat; oldHeartbeat; heartbeat] = true
  /\ exists groups,
       groupByName [heartbeat; oldHeartbeat; heartbeat] = Some groups
       /\ map fst groups
          = firstAppearance [] (map name [heartbeat; oldHeartbeat; heartbeat]).
Proof.
  split.
  - reflexivity.
  - destruct (groupByName_key_order [heartbeat; oldHeartbeat; heartbeat]
                eq_refl) as (groups & Hrun & Hnames & _).
    exists groups. split; [exact Hrun | exact Hnames].
Defined.

(** C9, as stated, fails: of the names "2" and "1", met in that order,
    [Object.keys] lists "1" first. *)
Lemma numbered_keys_are_sorted :
  option_map JsObject.keys (groupByName numberedEvents) = Some ["1"; "2"]
  /\ firstAppearance [] (map name numberedEvents) = ["2"; "1"].
Proof.
  vm_compute. split; reflexivity.
Qed.

(** ** Further properties of [isHealthy] *)

(** X1: health only fades with elapsed time. If an event is healthy, every
    event whose timestamp is no older at its own instant of evaluation is
    healthy too: a stale event stays stale as the clock advances, and a
    fresher timestamp is never classified worse. *)
Theorem isHealthy_fades :
  forall (parse : string -> option Z) (now now' t t' : Z)
         (dateStr dateStr' : string),
    parse dateStr = Some t ->
    parse dateStr' = Some t' ->
    now' - t' <= now - t ->
    isHealthy parse now dateStr = true ->
    isHealthy parse now' dateStr' = true.
Proof.
  intros parse now now' t t' dateStr dateStr' Hparse Hparse' Hle.
  rewrite (isHealthy_parsed parse now t dateStr Hparse).
  rewrite (isHealthy_parsed parse now' t' dateStr' Hparse').
  rewrite !Z.ltb_lt. lia.
Qed.

Lemma isHealthy_fades_witness :
  isHealthy sampleParse 1704067225000 "2024-01-01T00:00:20.000Z" = true.
Proof.
  apply (isHealthy_fades sampleParse 1704067225999 1704067225000
           1704067200000 1704067220000
           "2024-01-01T00:00:00.000Z" "2024-01-01T00:00:20.000Z").
  - reflexivity.
  - reflexivity.
  - lia.
  - reflexivity.
Defined.

(** ** Further properties of one poll *)

Section PollFacts.

Variable parse : string -> option Z.
Variable clock : nat -> Z.

(** The world [some] leaves: only the clock has been read, once per event
    evaluated. *)
Lemma some_unhealthy_world (body : list ServiceEvent) (w : World) :
  exec (some (unhealthy parse clock) body) w
  = {| cells := cells w; toasts := toasts w; console := console w;
       reads := reads w + evaluated parse clock (reads w) body |}.
Proof.
  revert w. induction body as [ | item rest IH]; intros w.
  - cbn [some evaluated]. unfold exec, ret. cbn [snd].
    rewrite Nat.add_0_r. destruct w; reflexivity.
  - cbn [some evaluated]. rewrite exec_bind.
    replace (result (unhealthy parse clock item) w)
      with (negb (isHealthy parse (clock (reads w)) (date item)))
      by reflexivity.
    destruct (isHealthy parse (clock (reads w)) (date item)); cbn [negb].
    + rewrite IH. cbn. rewrite Nat.add_succ_r. reflexivity.
    + cbn. rewrite Nat.add_1_r. reflexivity.
Qed.

(** The world a resolved events poll leaves, for any closure. *)
Lemma fetchData_resolved_world (captured : bool) (body : list ServiceEvent)
      (w : World) :
  exec (fetchData parse clock captured (Resolved body)) w
  = {| cells :=
         {| data := body;
            systemInfo := systemInfo (cells w);
            showConfetti :=
              if allHealthy parse clock (reads w) body
              then (if captured then showConfetti (cells w) else true)
              else false |};
       toasts :=
         toasts w
         ++ (if allHealthy parse clock (reads w) body
             then (if captured then [] else [celebrateToast])
             else [alertToast]);
       console := console w;
       reads := reads w + evaluated parse clock (reads w) body |}.
Proof.
  rewrite fetchData_resolved. cbn zeta. rewrite some_unhealthy_world.
  destruct (allHealthy parse clock (reads w) body); cbn [negb].
  - destruct captured; cbn [negb]; cbn; rewrite ?app_nil_r; reflexivity.
  - cbn. reflexivity.
Qed.

Lemma evaluated_le (body : list ServiceEvent) (k : nat) :
  (evaluated parse clock k body <= List.length body)%nat.
Proof.
  revert k. induction body as [ | item rest IH]; intros k; cbn [evaluated].
  - apply Nat.le_refl.
  - cbn [List.length].
    destruct (isHealthy parse (clock k) (date item)).
    + apply le_n_S, IH.
    + apply le_n_S, Nat.le_0_l.
Qed.

Lemma evaluated_allHealthy (body : list ServiceEvent) (k : nat) :
  allHealthy parse clock k body = true ->
  evaluated parse clock k body = List.length body.
Proof.
  revert k. induction body as [ | item rest IH]; intros k;
    cbn [evaluated allHealthy List.length].
  - reflexivity.
  - intros H. apply andb_true_iff in H as [Hhead Hrest].
    rewrite Hhead, (IH _ Hrest). reflexivity.
Qed.

Lemma evaluated_first_stale (body : list ServiceEvent) (k i : nat)
      (item : ServiceEvent) :
  nth_error body i = Some item ->
  isHealthy parse (clock (k + i)) (date item) = false ->
  allHealthy parse clock k (firstn i body) = true ->
  evaluated parse clock k body = S i.
Proof.
  revert k i. induction body as [ | e rest IH]; intros k i Hnth Hstale Hbefore.
  - destruct i; discriminate Hnth.
  - destruct i as [ | i]; cbn [nth_error firstn allHealthy evaluated] in *.
    + injection Hnth as ->. rewrite Nat.add_0_r in Hstale.
      rewrite Hstale. reflexivity.
    + apply andb_true_iff in Hbefore as [Hhead Hrest]. rewrite Hhead.
      f_equal. apply IH; [exact Hnth | | exact Hrest].
      rewrite Nat.add_succ_r in Hstale. exact Hstale.
Qed.

End PollFacts.

(** X2: [some] stops at the first stale event. A resolved events poll reads
    the clock once per event it evaluates: never more often than there are
    events, once per event when all evaluate healthy, and [i + 1] times
    when the event at position [i] is the first to evaluate stale, so the
    events after it are not evaluated. *)
Theorem poll_stops_at_first_stale :
  forall (parse : string -> option Z) (clock : nat -> Z) (captured : bool)
         (body : list ServiceEvent) (w : World),
    let w' := exec (fetchData parse clock captured (Resolved body)) w in
    (reads w <= reads w' <= reads w + List.length body)%nat
    /\ (allHealthy parse clock (reads w) body = true ->
        reads w' = (reads w + List.length body)%nat)
    /\ (forall (i : nat) (item : ServiceEvent),
           nth_error body i = Some item ->
           isHealthy parse (clock (reads w + i)%nat) (date item) = false ->
           allHealthy parse clock (reads w) (firstn i body) = true ->
           reads w' = (reads w + S i)%nat).
Proof.
  intros parse clock captured body w. cbn zeta.
  rewrite fetchData_resolved_world. cbn [reads].
  pose proof (evaluated_le parse clock body (reads w)) as Hle.
  split; [lia | split].
  - intros Hhealthy. rewrite (evaluated_allHealthy parse clock body _ Hhealthy).
    reflexivity.
  - intros i item Hnth Hstale Hbefore.
    rewrite (evaluated_first_stale parse clock body _ i item Hnth Hstale Hbefore).
    reflexivity.
Qed.

Lemma poll_stops_at_first_stale_witness :
  reads (exec (fetchData sampleParse sampleClock false
                 (Resolved [heartbeat; oldHeartbeat; heartbeat])) initialWorld)
  = (reads initialWorld + 2)%nat.
Proof.
  apply (proj2 (proj2 (poll_stops_at_first_stale sampleParse sampleClock false
                         [heartbeat; oldHeartbeat; heartbeat] initialWorld))
           1%nat oldHeartbeat).
  - reflexivity.
  - reflexivity.
  - reflexivity.
Defined.

(** ** Sequences of completions *)

Section TraceFacts.

Variable parse : string -> option Z.
Variable clock : nat -> Z.

Lemma run_app (cs cs' : list Completion) (w : World) :
  run parse clock (cs ++ cs') w = run parse clock cs' (run parse clock cs w).
Proof.
  revert w. induction cs as [ | c rest IH]; intros w; cbn [run app].
  - reflexivity.
  - apply IH.
Qed.

(** What one completion does to each part of the world. *)
Lemma step_toasts (c : Completion) (w : World) :
  toasts (exec (step parse clock c) w)
  = toasts w
    ++ match c with
       | servicesEvents (Resolved body) =>
           [pollToast parse clock (reads w) body]
       | _ => []
       end.
Proof.
  destruct c as [[body | err] | [body | err]];
    cbn [step mounted App render_fetchData render_fetchSystemInfo
         initialState showConfetti].
  - rewrite fetchData_resolved_world. cbn [toasts]. unfold pollToast.
    destruct (allHealthy parse clock (reads w) body); reflexivity.
  - cbn. rewrite app_nil_r. reflexivity.
  - cbn. rewrite app_nil_r. reflexivity.
  - cbn. rewrite app_nil_r. reflexivity.
Qed.

(** A completion other than a resolved events poll leaves the events, the
    latch, the toasts and the clock alone. *)
Lemma step_quiet (c : Completion) (w : World) :
  isResolvedPoll c = false ->
  data (cells (exec (step parse clock c) w)) = data (cells w)
  /\ showConfetti (cells (exec (step parse clock c) w)) = showConfetti (cells w)
  /\ toasts (exec (step parse clock c) w) = toasts w
  /\ reads (exec (step parse clock c) w) = reads w.
Proof.
  destruct c as [[body | err] | [body | err]]; cbn [isResolvedPoll];
    intros Hquiet; [discriminate Hquiet | | | ]; repeat split.
Qed.

Lemma run_quiet (cs : list Completion) (w : World) :
  forallb (fun c => negb (isResolvedPoll c)) cs = true ->
  data (cells (run parse clock cs w)) = data (cells w)
  /\ showConfetti (cells (run parse clock cs w)) = showConfetti (cells w)
  /\ toasts (run parse clock cs w) = toasts w
  /\ reads (run parse clock cs w) = reads w.
Proof.
  revert w. induction cs as [ | c rest IH]; intros w; cbn [run forallb].
  - repeat split.
  - intros H. apply andb_true_iff in H as [Hc Hrest].
    apply negb_true_iff in Hc.
    destruct (step_quiet c w Hc) as (Hd & Hl & Ht & Hr).
    destruct (IH (exec (step parse clock c) w) Hrest) as (Hd' & Hl' & Ht' & Hr').
    rewrite Hd', Hl', Ht', Hr'. repeat split; assumption.
Qed.

End TraceFacts.

(** X3: over any sequence of completions, every resolved events poll raises
    exactly one toast, the error toast or the success toast, and nothing
    else raises a toast: the toasts raised are as many as the resolved
    events polls. *)
Theorem one_toast_per_resolved_poll :
  forall (parse : string -> option Z) (clock : nat -> Z)
         (cs : list Completion) (w : World),
    exists new : list Toast,
      toasts (run parse clock cs w) = toasts w ++ new
      /\ List.length new = List.length (filter isResolvedPoll cs)
      /\ Forall (fun s => s = alertToast \/ s = celebrateToast) new.
Proof.
  intros parse clock cs. induction cs as [ | c rest IH]; intros w.
  - exists []. cbn [run filter List.length]. rewrite app_nil_r.
    repeat split. constructor.
  - cbn [run filter].
    destruct (IH (exec (step parse clock c) w)) as (new & Htoasts & Hlen & Hall).
    rewrite Htoasts, step_toasts, <- app_assoc.
    destruct c as [[body | err] | [body | err]]; cbn [isResolvedPoll app].
    + exists (pollToast parse clock (reads w) body :: new).
      split; [reflexivity | split].
      * cbn [List.length]. rewrite Hlen. reflexivity.
      * constructor; [ | exact Hall]. unfold pollToast.
        destruct (allHealthy parse clock (reads w) body); [right | left];
          reflexivity.
    + exists new. repeat split; assumption.
    + exists new. repeat split; assumption.
    + exists new. repeat split; assumption.
Qed.

(** X4: after any sequence of completions, the stored events are the body
    of the last events poll that resolved, the latch tells whether those
    events all evaluated healthy when that poll ran, and the last toast is
    the one that poll raised; later rejected polls and metrics completions
    change none of this. *)
Theorem latch_reflects_last_resolved_poll :
  forall (parse : string -> option Z) (clock : nat -> Z)
         (cs quiet : list Completion) (body : list ServiceEvent) (w : World),
    forallb (fun c => negb (isResolvedPoll c)) quiet = true ->
    let w1 := run parse clock cs w in
    let w' := run parse clock (cs ++ servicesEvents (Resolved body) :: quiet) w in
    data (cells w') = body
    /\ showConfetti (cells w') = allHealthy parse clock (reads w1) body
    /\ toasts w' = toasts w1 ++ [pollToast parse clock (reads w1) body].
Proof.
  intros parse clock cs quiet body w Hquiet. cbn zeta.
  rewrite run_app. cbn [run].
  set (w1 := run parse clock cs w).
  destruct (run_quiet parse clock quiet
              (exec (step parse clock (servicesEvents (Resolved body))) w1)
              Hquiet) as (Hd & Hl & Ht & _).
  rewrite Hd, Hl, Ht, step_toasts.
  cbn [step mounted App render_fetchData initialState showConfetti].
  rewrite fetchData_resolved_world. cbn [cells data showConfetti].
  repeat split.
  destruct (allHealthy parse clock (reads w1) body); reflexivity.
Qed.

Lemma latch_reflects_last_resolved_poll_witness :
  showConfetti
    (cells (run sampleParse sampleClock
              ([servicesEvents (Resolved [heartbeat])]
               ++ servicesEvents (Resolved [heartbeat; oldHeartbeat])
                  :: [servicesEvents (Rejected "Network Error");
                      systemInfoAll (Resolved sampleInfo)])
              initialWorld))
  = allHealthy sampleParse sampleClock
      (reads (run sampleParse sampleClock
                [servicesEvents (Resolved [heartbeat])] initialWorld))
      [heartbeat; oldHeartbeat].
Proof.
  apply (latch_reflects_last_resolved_poll sampleParse sampleClock
           [servicesEvents (Resolved [heartbeat])]
           [servicesEvents (Rejected "Network Error");
            systemInfoAll (Resolved sampleInfo)]
           [heartbeat; oldHeartbeat] initialWorld).
  reflexivity.
Defined.

(** X5: the two requests of a tick do not interfere. Whichever of the
    events request and the metrics request completes first, the state
    cells, the toasts and the clock reads end up the same; the whole world
    is the same unless both requests are rejected, when only the order of
    the two console lines differs. *)
Theorem events_and_metrics_commute :
  forall (parse : string -> option Z) (clock : nat -> Z)
         (events : Response (list ServiceEvent))
         (metrics : Response SystemInfo) (w : World),
    let a := run parse clock [servicesEvents events; systemInfoAll metrics] w in
    let b := run parse clock [systemInfoAll metrics; servicesEvents events] w in
    cells a = cells b
    /\ toasts a = toasts b
    /\ reads a = reads b
    /\ match events, metrics with
       | Rejected _, Rejected _ =>
           console a = console w ++ consoleLines (servicesEvents events)
                                 ++ consoleLines (systemInfoAll metrics)
           /\ console b = console w ++ consoleLines (systemInfoAll metrics)
                                    ++ consoleLines (servicesEvents events)
       | _, _ => a = b
       end.
Proof.
  intros parse clock [body | err] [info | err'] w; cbn zeta;
    cbn [run step mounted App render_fetchData render_fetchSystemInfo
         initialState showConfetti];
    rewrite ?fetchData_resolved_world; cbn; rewrite <- ?app_assoc;
    repeat split.
Qed.

(** ** Further properties of [groupByName] *)

Section GroupShape.

Import JsObject.

Lemma own_Some_names (obj : t) (key : string) (v : list ServiceEvent) :
  own obj key = Some v -> In key (map fst obj).
Proof.
  induction obj as [ | [k v'] rest IH]; cbn [own map fst]; intros Hown.
  - discriminate Hown.
  - destruct (String.eqb_spec k key) as [-> | Hne].
    + left. reflexivity.
    + right. apply IH. exact Hown.
Qed.

(** An object with distinct names whose values are a function of the name
    is the table of that function over its names. *)
Lemma object_is_table (f : string -> list ServiceEvent) (obj : t) :
  NoDup (map fst obj) ->
  (forall key v, own obj key = Some v -> v = f key) ->
  obj = map (fun key => (key, f key)) (map fst obj).
Proof.
  induction obj as [ | [k v] rest IH]; cbn [map fst]; intros Hnodup Hvalues.
  - reflexivity.
  - inversion Hnodup as [ | ? ? Hfresh Hrest]; subst.
    rewrite <- IH.
    + rewrite <- (Hvalues k v); [reflexivity | ].
      cbn [own]. rewrite String.eqb_refl. reflexivity.
    + exact Hrest.
    + intros key v' Hown. apply Hvalues. cbn [own].
      destruct (String.eqb_spec k key) as [-> | Hne]; [ | exact Hown].
      exfalso. apply Hfresh. apply (own_Some_names rest key v' Hown).
Qed.

Lemma named_groupOf (key : string) (d : list ServiceEvent) :
  named key d = true <-> groupOf key d <> [].
Proof.
  unfold named, groupOf. induction d as [ | item rest IH]; cbn [existsb filter].
  - split; [discriminate | intros H; contradiction H; reflexivity].
  - destruct (String.eqb (name item) key); cbn [orb].
    + split; [discriminate | reflexivity].
    + exact IH.
Qed.

Lemma firstAppearance_length (l seen : list string) :
  (List.length (firstAppearance seen l) <= List.length l)%nat.
Proof.
  revert seen. induction l as [ | x rest IH]; intros seen;
    cbn [firstAppearance List.length].
  - apply Nat.le_refl.
  - destruct (existsb (String.eqb x) seen); cbn [List.length].
    + apply Nat.le_le_succ_r, IH.
    + apply le_n_S, IH.
Qed.

(** The object [groupByName] returns, in closed form. *)
Lemma groupByName_table (d : list ServiceEvent) :
  plainNames d = true ->
  groupByName d
  = Some (map (fun key => (key, groupOf key d))
              (firstAppearance [] (map name d))).
Proof.
  intros Hplain.
  destruct (forEach_visit_returns d []) as (groups & Hrun & Hnames & Hown & _).
  { intros item Hin _. apply (proj1 (plainNames_spec d) Hplain item Hin). }
  cbn [map app own] in *. unfold groupByName. rewrite Hrun. f_equal.
  rewrite <- Hnames. apply object_is_table.
  - rewrite Hnames. apply firstAppearance_NoDup.
  - intros key v Hv. rewrite (Hown key) in Hv.
    destruct (named key d); [ | discriminate Hv].
    injection Hv as <-. reflexivity.
Qed.

End GroupShape.

(** The inputs on which [groupByName] throws. *)
Lemma groupByName_None_iff :
  forall d : list ServiceEvent,
    groupByName d = None
    <-> exists item, In item d /\ JsObject.inherited (name item) = true.
Proof.
  intros d. split.
  - intros Hthrows. destruct (plainNames d) eqn:Hplain.
    + apply groupByName_returns_iff in Hplain as (groups & Hrun).
      rewrite Hrun in Hthrows. discriminate Hthrows.
    + unfold plainNames in Hplain.
      induction d as [ | item rest IH]; cbn [forallb] in Hplain.
      * discriminate Hplain.
      * destruct (JsObject.inherited (name item)) eqn:Hinh.
        -- exists item. split; [left; reflexivity | exact Hinh].
        -- cbn [negb andb] in Hplain.
           destruct (groupByName rest) as [groups | ] eqn:Hrest.
           ++ assert (Hp : plainNames rest = true)
                by (apply groupByName_returns_iff; exists groups; exact Hrest).
              unfold plainNames in Hp. rewrite Hp in Hplain.
              discriminate Hplain.
           ++ destruct (IH eq_refl Hplain) as (bad & Hin & Hbad).
              exists bad. split; [right; exact Hin | exact Hbad].
  - intros (item & Hin & Hinh).
    destruct (groupByName d) as [groups | ] eqn:Hrun; [ | reflexivity].
    assert (Hplain : plainNames d = true)
      by (apply groupByName_returns_iff; exists groups; exact Hrun).
    rewrite (proj1 (plainNames_spec d) Hplain item Hin) in Hinh.
    discriminate Hinh.
Qed.

(** X6: [groupByName] throws exactly when some event bears a name every
    object inherits from [Object.prototype] ("constructor", "toString",
    "__proto__", ...); on every other input, the empty one included, it
    returns. *)
Theorem groupByName_throws_iff :
  forall d : list ServiceEvent,
    groupByName d = None
    <-> exists item, In item d /\ JsObject.inherited (name item) = true.
Proof.
  exact groupByName_None_iff.
Qed.

(** X7: on an input without inherited names [groupByName] returns a
    partition of the input: an event is in the group of a name exactly when
    it is an input event of that name, the groups together hold the input
    events, each as often as the input does, and the group sizes add up to
    the input length. *)
Theorem groupByName_partitions_plain_input :
  forall d : list ServiceEvent,
    plainNames d = true ->
    exists groups,
      groupByName d = Some groups
      /\ (forall (key : string) (item : ServiceEvent),
             (exists group,
                 JsObject.own groups key = Some group /\ In item group)
             <-> (In item d /\ name item = key))
      /\ Permutation (List.concat (map snd groups)) d
      /\ list_sum (map (fun g => List.length (snd g)) groups) = List.length d.
Proof.
  intros d Hplain.
  destruct (groupByName_partition d Hplain)
    as (groups & Hrun & _ & _ & Hperm & Hcount).
  exists groups. split; [exact Hrun | split; [ | split; assumption]].
  apply groupByName_member; assumption.
Qed.

Lemma groupByName_partitions_plain_input_witness :
  exists groups,
    groupByName [heartbeat; oldHeartbeat; heartbeat] = Some groups
    /\ list_sum (map (fun g => List.length (snd g)) groups) = 3%nat.
Proof.
  destruct (groupByName_partitions_plain_input
              [heartbeat; oldHeartbeat; heartbeat] eq_refl)
    as (groups & Hrun & _ & _ & Hcount).
  exists groups. split; [exact Hrun | exact Hcount].
Defined.

(** X8: whenever [groupByName] returns, the names of the groups are
    distinct, no group is empty, and there are at most as many groups as
    events; in particular the object is empty exactly when the input is. *)
Theorem groupByName_groups_are_nonempty :
  forall (d : list ServiceEvent) (groups : JsObject.t),
    groupByName d = Some groups ->
    NoDup (map fst groups)
    /\ Forall (fun g => snd g <> []) groups
    /\ (List.length groups <= List.length d)%nat
    /\ (groups = [] <-> d = []).
Proof.
  intros d groups Hrun.
  assert (Hplain : plainNames d = true)
    by (apply groupByName_returns_iff; exists groups; exact Hrun).
  rewrite (groupByName_table d Hplain) in Hrun. injection Hrun as <-.
  split; [ | split; [ | split]].
  - rewrite map_map. cbn [fst]. rewrite map_id. apply firstAppearance_NoDup.
  - apply Forall_forall. intros [key group] Hin.
    apply in_map_iff in Hin as (key' & Heq & Hkey). injection Heq as <- <-.
    cbn [snd]. apply named_groupOf.
    apply firstAppearance_In in Hkey as [Hkey _].
    apply in_map_iff in Hkey as (item & Hname & Hitem).
    unfold named. apply existsb_exists. exists item.
    split; [exact Hitem | apply String.eqb_eq; exact Hname].
  - rewrite length_map.
    rewrite <- (length_map name d). apply firstAppearance_length.
  - split.
    + intros Hempty. destruct d as [ | item rest]; [reflexivity | ].
      cbn in Hempty. discriminate Hempty.
    + intros ->. reflexivity.
Qed.

Lemma groupByName_groups_are_nonempty_witness :
  NoDup (map fst [("svc1", [heartbeat; heartbeat]); ("svc2", [oldHeartbeat])]).
Proof.
  apply (groupByName_groups_are_nonempty
           [heartbeat; oldHeartbeat; heartbeat]
           [("svc1", [heartbeat; heartbeat]); ("svc2", [oldHeartbeat])]).
  reflexivity.
Defined.
